(** * Diplomat feature tests: the generated FFI declarations

    The development embeds the generated declarations of the repository:

    - the two C/C++ headers that declare the tagged result record
      [diplomat_result_double_void]
      (feature_tests/cpp/include/diplomat_result_double_void.h and the
      second header with include guard [diplomat_result_double_void_D_H]);
    - the generated C# raw binding [Utf16Wrap]
      (feature_tests/dotnet/Lib/Generated/RawUtf16Wrap.cs).

    The declarations are embedded as abstract syntax; the struct layout
    follows the sequential layout rules of C.  The native library behind
    the declarations (the encoder of the result record, the
    implementation of the three [Utf16Wrap_*] symbols) is not part of the
    sources; where a property needs it, it is modelled from the
    specification and marked as such. *)

From stdpp Require Import gmap strings list.
From Stdlib Require Import ZArith Lia.

Local Open Scope Z_scope.

(* ===================================================================== *)
(** ** The C headers *)
(* ===================================================================== *)

Module CHeader.

(** The scalar types that occur in the declaration: [double] and [bool]
    (of <stdbool.h>). *)
Inductive scalar : Type := Tdouble | Tbool.

#[global] Instance scalar_eq_dec : EqDecision scalar.
Proof. solve_decision. Defined.

(** [T name;] *)
Record member : Type := Member { m_type : scalar; m_name : string }.

#[global] Instance member_eq_dec : EqDecision member.
Proof. solve_decision. Defined.

(** A field of a struct: an anonymous [union { ... };] or a plain member. *)
Inductive field : Type :=
| FAnonUnion (members : list member)
| FMember (m : member).

#[global] Instance field_eq_dec : EqDecision field.
Proof. solve_decision. Defined.

(** [typedef struct tag { fields } alias;] *)
Record struct_typedef : Type := StructTypedef
  { s_tag : string; s_fields : list field; s_alias : string }.

#[global] Instance struct_typedef_eq_dec : EqDecision struct_typedef.
Proof. solve_decision. Defined.

Inductive include : Type :=
| System (file : string)        (* #include <file> *)
| Quoted (file : string).       (* #include "file" *)

#[global] Instance include_eq_dec : EqDecision include.
Proof. solve_decision. Defined.

(** A generated header: include guard, includes, and the declarations,
    which under [__cplusplus] sit in [namespace ns { extern "C" { ... } }]. *)
Record header : Type := Header
  { h_guard : string;
    h_includes : list include;
    h_cpp_namespace : string;
    h_cpp_linkage : string;
    h_decls : list struct_typedef }.

#[global] Instance header_eq_dec : EqDecision header.
Proof. solve_decision. Defined.

Definition runtime_includes : list include :=
  [ System "stdio.h"; System "stdint.h"; System "stddef.h";
    System "stdbool.h"; Quoted "diplomat_runtime.h" ].

(** feature_tests/cpp/include/diplomat_result_double_void.h, lines 13-18:
<<
typedef struct diplomat_result_double_void {
    union {
        double ok;
    };
    bool is_ok;
} diplomat_result_double_void;
>> *)
Definition diplomat_result_double_void_h : struct_typedef :=
  {| s_tag := "diplomat_result_double_void";
     s_fields :=
       [ FAnonUnion [ Member Tdouble "ok" ];
         FMember (Member Tbool "is_ok") ];
     s_alias := "diplomat_result_double_void" |}.

Definition header_h : header :=
  {| h_guard := "diplomat_result_double_void_H";
     h_includes := runtime_includes;
     h_cpp_namespace := "capi";
     h_cpp_linkage := "C";
     h_decls := [ diplomat_result_double_void_h ] |}.

(** The second header (guard [diplomat_result_double_void_D_H]),
    lines 16-21:
<<
typedef struct diplomat_result_double_void {
  union {
    double ok;
  };
  bool is_ok;
} diplomat_result_double_void;
>> *)
Definition diplomat_result_double_void_d_h : struct_typedef :=
  {| s_tag := "diplomat_result_double_void";
     s_fields :=
       [ FAnonUnion [ Member Tdouble "ok" ];
         FMember (Member Tbool "is_ok") ];
     s_alias := "diplomat_result_double_void" |}.

Definition header_d_h : header :=
  {| h_guard := "diplomat_result_double_void_D_H";
     h_includes := runtime_includes;
     h_cpp_namespace := "capi";
     h_cpp_linkage := "C";
     h_decls := [ diplomat_result_double_void_d_h ] |}.

(** *** Sizes, alignments and the sequential layout *)

(** What the target fixes: size and alignment of each scalar type. *)
Record abi : Type := Abi
  { sizeof_scalar : scalar -> Z; alignof_scalar : scalar -> Z }.

(** C guarantees: every object type has a size of at least one byte, and
    the size is a multiple of the (positive) alignment. *)
Definition abi_wf (a : abi) : Prop :=
  forall t, 1 <= alignof_scalar a t /\ 1 <= sizeof_scalar a t
            /\ (alignof_scalar a t | sizeof_scalar a t).

(** The usual 64-bit targets: an 8-byte [double] aligned to 8, a 1-byte
    [bool]. *)
Definition lp64 : abi :=
  {| sizeof_scalar := fun t => match t with Tdouble => 8 | Tbool => 1 end;
     alignof_scalar := fun t => match t with Tdouble => 8 | Tbool => 1 end |}.

(** The payload types of a tagged result: a scalar, or [void], which has
    no storage. *)
Inductive payload_type : Type := Pvoid | Pscalar (t : scalar).

Definition sizeof_payload (a : abi) (p : payload_type) : Z :=
  match p with Pvoid => 0 | Pscalar t => sizeof_scalar a t end.

Definition alignof_payload (a : abi) (p : payload_type) : Z :=
  match p with Pvoid => 1 | Pscalar t => alignof_scalar a t end.

(** [diplomat_result_double_void]: success carries a [double], failure
    carries nothing. *)
Definition success_type : payload_type := Pscalar Tdouble.
Definition failure_type : payload_type := Pvoid.

(** Round [off] up to the next multiple of [al]. *)
Definition align_up (off al : Z) : Z := ((off + al - 1) / al) * al.

Definition alignof_union (a : abi) (ms : list member) : Z :=
  foldr (fun m acc => Z.max (alignof_scalar a (m_type m)) acc) 1 ms.

(** All members of a union start at its beginning; the union is as large
    as its largest member, rounded up to its alignment. *)
Definition sizeof_union (a : abi) (ms : list member) : Z :=
  align_up (foldr (fun m acc => Z.max (sizeof_scalar a (m_type m)) acc) 0 ms)
           (alignof_union a ms).

Definition alignof_field (a : abi) (f : field) : Z :=
  match f with
  | FAnonUnion ms => alignof_union a ms
  | FMember m => alignof_scalar a (m_type m)
  end.

Definition sizeof_field (a : abi) (f : field) : Z :=
  match f with
  | FAnonUnion ms => sizeof_union a ms
  | FMember m => sizeof_scalar a (m_type m)
  end.

(** Sequential layout: each field goes to the first offset, at or after
    the end of the previous field, that satisfies its alignment. *)
Fixpoint layout_from (a : abi) (off : Z) (fs : list field) : list (field * Z) :=
  match fs with
  | [] => []
  | f :: fs' =>
      let o := align_up off (alignof_field a f) in
      (f, o) :: layout_from a (o + sizeof_field a f) fs'
  end.

Definition layout (a : abi) (s : struct_typedef) : list (field * Z) :=
  layout_from a 0 (s_fields s).

Definition alignof_struct (a : abi) (s : struct_typedef) : Z :=
  foldr (fun f acc => Z.max (alignof_field a f) acc) 1 (s_fields s).

Definition end_of_fields (a : abi) (s : struct_typedef) : Z :=
  foldr (fun p acc => Z.max (p.2 + sizeof_field a p.1) acc) 0 (layout a s).

Definition sizeof_struct (a : abi) (s : struct_typedef) : Z :=
  align_up (end_of_fields a s) (alignof_struct a s).

(** The names a field makes accessible in the struct: the members of an
    anonymous union are members of the enclosing struct. *)
Definition field_members (f : field) : list member :=
  match f with
  | FAnonUnion ms => ms
  | FMember m => [m]
  end.

(** Offset and type of the member called [name]. *)
Definition member_offset (a : abi) (s : struct_typedef) (name : string)
  : option (Z * scalar) :=
  let placed :=
    flat_map (fun p => map (fun m => (m_name m, (p.2, m_type m)))
                           (field_members p.1))
             (layout a s) in
  snd <$> List.find (fun q => bool_decide (q.1 = name)) placed.

End CHeader.

(* ===================================================================== *)
(** ** The tagged result record and its codec *)
(* ===================================================================== *)

Module ResultCodec.
Import CHeader.

(** A [double] is handled as its 64 bits; nothing here computes with it. *)
Definition is_double (v : Z) : Prop := 0 <= v < 2 ^ 64.

(** The struct as a record.  The anonymous union has the single member
    [ok], so the payload slot is the field [ok]. *)
Record diplomat_result_double_void : Type := DiplomatResult
  { ok : Z; is_ok : bool }.

(** Modelled from the spec: the outcome of the fallible operation, a
    success with a [double] or a failure with no payload (section 4.1). *)
Inductive outcome : Type :=
| Success (v : Z)
| Failure.

(** Modelled from the spec: the encoder and the decoder of the record are
    not in the sources (the headers only declare the record).  Section 4.1:
    Encode sets [is_ok = true] and writes [v] into the payload slot for a
    success; for a failure it sets [is_ok = false] and leaves the payload
    slot unspecified, so the slot keeps what the storage [slot] held
    before. *)
Definition Encode (slot : diplomat_result_double_void) (o : outcome)
  : diplomat_result_double_void :=
  match o with
  | Success v => {| ok := v; is_ok := true |}
  | Failure => {| ok := ok slot; is_ok := false |}
  end.

(** Modelled from the spec: Decode yields success with the payload slot
    read at the success type if [is_ok] is true, and failure with no
    payload otherwise. *)
Definition Decode (r : diplomat_result_double_void) : outcome :=
  if is_ok r then Success (ok r) else Failure.

(** *** The record in memory

    A value of the struct occupies [sizeof_struct] bytes, laid out by
    [CHeader.layout]; the image below is the one of the [lp64] targets
    with the low byte first. *)

Definition decl : struct_typedef := diplomat_result_double_void_h.

Fixpoint bytes_of_bits (n : nat) (v : Z) : list Z :=
  match n with
  | O => []
  | S n' => v mod 256 :: bytes_of_bits n' (v / 256)
  end.

Fixpoint bits_of_bytes (bs : list Z) : Z :=
  match bs with
  | [] => 0
  | b :: bs' => b + 256 * bits_of_bytes bs'
  end.

(** Overwrite [length bs] bytes of [mem] from offset [off] on. *)
Definition write_at (off : nat) (bs mem : list Z) : list Z :=
  take off mem ++ bs ++ drop (off + length bs) mem.

Definition read_at (off n : nat) (mem : list Z) : list Z :=
  take n (drop off mem).

Definition offset_of (name : string) : nat :=
  match member_offset lp64 decl name with
  | Some (o, _) => Z.to_nat o
  | None => 0%nat
  end.

Definition size_of (name : string) : nat :=
  match member_offset lp64 decl name with
  | Some (_, t) => Z.to_nat (sizeof_scalar lp64 t)
  | None => 0%nat
  end.

Definition record_size : nat := Z.to_nat (sizeof_struct lp64 decl).

(** [mem.ok = r.ok; mem.is_ok = r.is_ok;] on the bytes of the record. *)
Definition to_memory (mem : list Z) (r : diplomat_result_double_void) : list Z :=
  write_at (offset_of "is_ok") (bytes_of_bits (size_of "is_ok") (Z.b2z (is_ok r)))
    (write_at (offset_of "ok") (bytes_of_bits (size_of "ok") (ok r)) mem).

(** Reading both members back; a [bool] is true when its storage is not 0. *)
Definition of_memory (mem : list Z) : diplomat_result_double_void :=
  {| ok := bits_of_bytes (read_at (offset_of "ok") (size_of "ok") mem);
     is_ok := negb (bits_of_bytes (read_at (offset_of "is_ok") (size_of "is_ok") mem) =? 0) |}.

End ResultCodec.

(* ===================================================================== *)
(** ** The generated C# raw binding *)
(* ===================================================================== *)

Module CSharp.

(** [System.Runtime.InteropServices.CallingConvention] *)
Inductive calling_convention : Type :=
| Winapi | Cdecl | StdCall | ThisCall | FastCall.

#[global] Instance calling_convention_eq_dec : EqDecision calling_convention.
Proof. solve_decision. Defined.

(** [System.Runtime.InteropServices.LayoutKind] *)
Inductive layout_kind : Type := Sequential | Explicit | Auto.

#[global] Instance layout_kind_eq_dec : EqDecision layout_kind.
Proof. solve_decision. Defined.

(** The types of the signatures: [void], [ushort[]] and a pointer to a
    named struct. *)
Inductive cs_type : Type :=
| CsVoid
| CsUShortArray
| CsPointer (struct_name : string).

#[global] Instance cs_type_eq_dec : EqDecision cs_type.
Proof. solve_decision. Defined.

(** [[DllImport(lib, CallingConvention = cc, EntryPoint = ep,
    ExactSpelling = es)]] *)
Record dll_import : Type := DllImport
  { di_lib : string;
    di_calling_convention : calling_convention;
    di_entry_point : string;
    di_exact_spelling : bool }.

#[global] Instance dll_import_eq_dec : EqDecision dll_import.
Proof. solve_decision. Defined.

(** [public static unsafe extern ret name(params);] with its attribute. *)
Record extern_method : Type := ExternMethod
  { em_import : dll_import;
    em_return : cs_type;
    em_name : string;
    em_params : list (cs_type * string) }.

#[global] Instance extern_method_eq_dec : EqDecision extern_method.
Proof. solve_decision. Defined.

(** [[StructLayout(kind)] public partial struct name { methods }] *)
Record raw_struct : Type := RawStruct
  { rs_namespace : string;
    rs_layout : layout_kind;
    rs_name : string;
    rs_methods : list extern_method }.

(** [private const string NativeLib = "diplomat_feature_tests";] *)
Definition NativeLib : string := "diplomat_feature_tests".

(** RawUtf16Wrap.cs, lines 19-20. *)
Definition BorrowCont : extern_method :=
  {| em_import :=
       {| di_lib := NativeLib; di_calling_convention := Cdecl;
          di_entry_point := "Utf16Wrap_borrow_cont"; di_exact_spelling := true |};
     em_return := CsUShortArray;
     em_name := "BorrowCont";
     em_params := [ (CsPointer "Utf16Wrap", "self") ] |}.

(** RawUtf16Wrap.cs, lines 22-23. *)
Definition Owned : extern_method :=
  {| em_import :=
       {| di_lib := NativeLib; di_calling_convention := Cdecl;
          di_entry_point := "Utf16Wrap_owned"; di_exact_spelling := true |};
     em_return := CsUShortArray;
     em_name := "Owned";
     em_params := [ (CsPointer "Utf16Wrap", "self") ] |}.

(** RawUtf16Wrap.cs, lines 25-26. *)
Definition Destroy : extern_method :=
  {| em_import :=
       {| di_lib := NativeLib; di_calling_convention := Cdecl;
          di_entry_point := "Utf16Wrap_destroy"; di_exact_spelling := true |};
     em_return := CsVoid;
     em_name := "Destroy";
     em_params := [ (CsPointer "Utf16Wrap", "self") ] |}.

(** RawUtf16Wrap.cs, lines 10-27. *)
Definition Utf16Wrap : raw_struct :=
  {| rs_namespace := "DiplomatFeatures.Raw";
     rs_layout := Sequential;
     rs_name := "Utf16Wrap";
     rs_methods := [ BorrowCont; Owned; Destroy ] |}.

(** The type signature of a method: the parameter types in order and the
    return type. *)
Definition signature (m : extern_method) : list cs_type * cs_type :=
  (map fst (em_params m), em_return m).

(** The method of the struct with the given C# name. *)
Definition find_method (s : raw_struct) (name : string) : option extern_method :=
  List.find (fun m => bool_decide (em_name m = name)) (rs_methods s).

(** The three operations of the handle, under the names the
    specification gives them. *)
Inductive operation : Type := BorrowContiguous | TakeOwned | DestroyOp.

#[global] Instance operation_eq_dec : EqDecision operation.
Proof. solve_decision. Defined.

(** The generated method that stands for each operation. *)
Definition method_of (op : operation) : extern_method :=
  match op with
  | BorrowContiguous => BorrowCont
  | TakeOwned => Owned
  | DestroyOp => Destroy
  end.

(** The operation name inside the native symbol. *)
Definition operation_name (op : operation) : string :=
  match op with
  | BorrowContiguous => "borrow_cont"
  | TakeOwned => "owned"
  | DestroyOp => "destroy"
  end.

(** The symbol pattern [<TypeName>_<operationName>]. *)
Definition symbol_name (type_name op_name : string) : string :=
  type_name +:+ "_" +:+ op_name.

(** A method with the name and the entry point of [m] and everything else
    (library, calling convention, spelling, parameters, return type) of
    [m']. *)
Definition renamed_as (m m' : extern_method) : extern_method :=
  {| em_import :=
       {| di_lib := di_lib (em_import m');
          di_calling_convention := di_calling_convention (em_import m');
          di_entry_point := di_entry_point (em_import m);
          di_exact_spelling := di_exact_spelling (em_import m') |};
     em_return := em_return m';
     em_name := em_name m;
     em_params := em_params m' |}.

End CSharp.

(* ===================================================================== *)
(** ** The native object behind the handle *)
(* ===================================================================== *)

Module Native.
Import CSharp.

(** Modelled from the spec: the native side of the binding is not in the
    sources (RawUtf16Wrap.cs only declares the three entry points).
    Sections 3 and 4.2: a handle refers to a native object that owns a run
    of 16-bit units; an owned sequence is storage of its own, handed to
    the caller.  The store maps the address behind a [Utf16Wrap*] to the
    units of the live object there, and the address of each owned
    sequence not yet released to its units. *)
Record store : Type := Store
  { objects : gmap positive (list Z);
    owned : gmap positive (list Z) }.

(** Modelled from the spec: a borrowed view is a window on the storage of
    its source object: which object, and how many units. *)
Record view : Type := View { view_src : positive; view_len : nat }.

(** Modelled from the spec: what an operation hands back. *)
Inductive returned : Type :=
| RView (v : view)          (* BorrowContiguous *)
| ROwned (b : positive)     (* TakeOwned *)
| RNothing.                 (* Destroy, release *)

(** Modelled from the spec: section 7 keeps two channels apart, a failure
    reported to the caller as data and a violated precondition, which the
    protocol neither detects nor recovers from. *)
Inductive outcome : Type :=
| Returns (r : returned) (s' : store)
| RuntimeFailure
| PreconditionViolation.

(** Modelled from the spec: construction of a handle (not shown in the
    sources) places the object at an unused address. *)
Definition create (s : store) (units : list Z) : positive * store :=
  let h := fresh (dom (objects s)) in
  (h, {| objects := <[h := units]> (objects s); owned := owned s |}).

(** Modelled from the spec: section 4.2.  Every operation requires a live
    handle.  BorrowContiguous returns a view of the object's units and
    changes nothing; TakeOwned copies the units into new storage of the
    caller; Destroy releases the object. *)
Definition call (s : store) (op : operation) (h : positive) : outcome :=
  match objects s !! h with
  | None => PreconditionViolation
  | Some units =>
      match op with
      | BorrowContiguous =>
          Returns (RView {| view_src := h; view_len := length units |}) s
      | TakeOwned =>
          let b := fresh (dom (owned s)) in
          Returns (ROwned b)
                  {| objects := objects s; owned := <[b := units]> (owned s) |}
      | DestroyOp =>
          Returns RNothing
                  {| objects := delete h (objects s); owned := owned s |}
      end
  end.

(** Modelled from the spec: the release of an owned sequence; releasing
    what is not held (a second release) is a violated precondition. *)
Definition release (s : store) (b : positive) : outcome :=
  match owned s !! b with
  | None => PreconditionViolation
  | Some _ =>
      Returns RNothing {| objects := objects s; owned := delete b (owned s) |}
  end.

(** Modelled from the spec: a view shows the first [view_len] units of
    its source, as long as the source is alive. *)
Definition view_content (s : store) (v : view) : option (list Z) :=
  take (view_len v) <$> objects s !! view_src v.

(** Modelled from the spec: a view is valid while it shows something. *)
Definition view_valid (s : store) (v : view) : Prop :=
  is_Some (view_content s v).

(** *** The life of one handle *)

(** Modelled from the spec: the states of a handle (section 4.2). *)
Inductive handle_state : Type := Live | Destroyed.

#[global] Instance handle_state_eq_dec : EqDecision handle_state.
Proof. solve_decision. Defined.

(** Modelled from the spec: a step is legal and leads to a state, or it
    is one of the two kinds of error of section 7. *)
Inductive step_result : Type :=
| Next (st : handle_state)
| StepRuntimeFailure
| StepPreconditionViolation.

(** Modelled from the spec: a handle is Live on construction. *)
Definition initial_state : handle_state := Live.

(** Modelled from the spec: the state machine of section 4.2. *)
Definition step (st : handle_state) (op : operation) : step_result :=
  match st with
  | Destroyed => StepPreconditionViolation
  | Live =>
      match op with
      | DestroyOp => Next Destroyed
      | BorrowContiguous | TakeOwned => Next Live
      end
  end.

(** A sequence of operations on one handle; it stops at the first step
    that is not legal. *)
Fixpoint run (st : handle_state) (ops : list operation) : step_result :=
  match ops with
  | [] => Next st
  | op :: ops' =>
      match step st op with
      | Next st' => run st' ops'
      | r => r
      end
  end.

(** The state of handle [h] in a store: Live while its object is there. *)
Definition state_of (s : store) (h : positive) : handle_state :=
  match objects s !! h with
  | Some _ => Live
  | None => Destroyed
  end.

(** How many times a sequence of operations destroys. *)
Definition destroys (ops : list operation) : nat :=
  length (filter (fun op => op = DestroyOp) ops).

(** The scenario of the specification: a handle on the units of the text
    hi, 0x0068 and 0x0069, constructed in an empty store. *)
Definition hi_units : list Z := [104; 105].

Definition empty_store : store := {| objects := ∅; owned := ∅ |}.

Definition hi_handle : positive := (create empty_store hi_units).1.

Definition hi_store : store := (create empty_store hi_units).2.

(** The store an operation leaves behind ([s] itself when the operation
    does not return). *)
Definition store_after (s : store) (o : outcome) : store :=
  match o with
  | Returns _ s' => s'
  | RuntimeFailure | PreconditionViolation => s
  end.

(** The scenario continued: the caller has taken an owned sequence from
    the handle on hi and still holds it, at address [hi_owned]. *)
Definition hi_taken : store :=
  store_after hi_store (call hi_store TakeOwned hi_handle).

Definition hi_owned : positive := fresh (dom (owned hi_store)).

End Native.

(* ===================================================================== *)
(** ** Including the headers *)
(* ===================================================================== *)

Module Preprocessor.
Import CHeader.

(** A declaration as the compiler meets it: under [__cplusplus] inside
    [namespace ns { extern "linkage" { ... } }], otherwise at file scope. *)
Record placed_decl : Type := Placed
  { pd_namespace : option string;
    pd_linkage : option string;
    pd_decl : struct_typedef }.

(** The part of a translation unit the headers act on: the macros defined
    so far and the declarations the headers have contributed. *)
Record translation_unit : Type := TranslationUnit
  { tu_defined : gset string;
    tu_decls : list placed_decl }.

(** [#ifdef __cplusplus namespace ns { extern "C" { #endif] around the
    declarations. *)
Definition place (cpp : bool) (h : header) (d : struct_typedef) : placed_decl :=
  if cpp
  then {| pd_namespace := Some (h_cpp_namespace h);
          pd_linkage := Some (h_cpp_linkage h);
          pd_decl := d |}
  else {| pd_namespace := None; pd_linkage := None; pd_decl := d |}.

(** The files a header includes ([stdio.h], ..., [diplomat_runtime.h]) are
    not among the sources: [inc f defined] stands for the macros defined
    once file [f] has been included where [defined] were. *)
Definition include_all (inc : include -> gset string -> gset string)
    (fs : list include) (defined : gset string) : gset string :=
  foldl (fun d f => inc f d) defined fs.

(** A header, as both are written:
<<
#ifndef GUARD
#define GUARD
#include ...
#ifdef __cplusplus ... #endif
typedef struct ... ;
#ifdef __cplusplus ... #endif
#endif
>> *)
Definition include_header (inc : include -> gset string -> gset string)
    (h : header) (tu : translation_unit) : translation_unit :=
  if decide (h_guard h ∈ tu_defined tu) then tu
  else
    let defined :=
      include_all inc (h_includes h) ({[ h_guard h ]} ∪ tu_defined tu) in
    {| tu_defined := defined;
       tu_decls :=
         tu_decls tu
         ++ map (place (bool_decide ("__cplusplus" ∈ defined)) h) (h_decls h) |}.

Definition include_headers (inc : include -> gset string -> gset string)
    (hs : list header) (tu : translation_unit) : translation_unit :=
  foldl (fun u h => include_header inc h u) tu hs.

(** The included files undefine nothing. *)
Definition only_defines (inc : include -> gset string -> gset string) : Prop :=
  forall f d, d ⊆ inc f d.

(** The included files do not define the macro [g]. *)
Definition leaves_alone (inc : include -> gset string -> gset string)
    (g : string) : Prop :=
  forall f d, g ∈ inc f d -> g ∈ d.

(** Included files that define no macro at all, and a unit in which
    nothing is defined yet. *)
Definition inc_nothing : include -> gset string -> gset string :=
  fun _ d => d.

Definition empty_unit : translation_unit :=
  {| tu_defined := ∅; tu_decls := [] |}.

End Preprocessor.

Module LayoutCheck.
Import CHeader.

(** What a placement of fields from offset [off] on must satisfy: every
    field starts at a multiple of its alignment, at or after the end of
    the field before it (so no two fields overlap). *)
Fixpoint packed (a : abi) (off : Z) (l : list (field * Z)) : Prop :=
  match l with
  | [] => True
  | (f, o) :: l' =>
      off <= o /\ (alignof_field a f | o) /\ packed a (o + sizeof_field a f) l'
  end.

End LayoutCheck.

(* ===================================================================== *)
(** ** Properties of the headers *)
(* ===================================================================== *)

Section HeaderFacts.
Import CHeader.

Lemma align_up_zero al : 1 <= al -> align_up 0 al = 0.
Proof.
  intros Hal. unfold align_up.
  replace (0 + al - 1) with (al - 1) by lia.
  rewrite Z.div_small by lia. lia.
Qed.

Lemma align_up_multiple x al : 1 <= al -> (al | x) -> align_up x al = x.
Proof.
  intros Hal [k ->]. unfold align_up.
  replace (k * al + al - 1) with ((al - 1) + k * al) by lia.
  rewrite Z.div_add by lia.
  rewrite Z.div_small by lia. lia.
Qed.

Lemma align_up_ge x al : 1 <= al -> x <= align_up x al.
Proof.
  intros Hal. unfold align_up.
  pose proof (Z.div_mod (x + al - 1) al ltac:(lia)) as Hdm.
  pose proof (Z.mod_pos_bound (x + al - 1) al ltac:(lia)) as Hb.
  lia.
Qed.

Lemma layout_lp64 :
  layout lp64 diplomat_result_double_void_h
  = [ (FAnonUnion [Member Tdouble "ok"], 0); (FMember (Member Tbool "is_ok"), 8) ]
  /\ sizeof_struct lp64 diplomat_result_double_void_h = 16
  /\ member_offset lp64 diplomat_result_double_void_h "ok" = Some (0, Tdouble)
  /\ member_offset lp64 diplomat_result_double_void_h "is_ok" = Some (8, Tbool).
Proof. vm_compute. done. Qed.

Lemma lp64_wf : abi_wf lp64.
Proof.
  intros []; simpl; repeat split; try lia; apply Z.divide_refl.
Qed.

(** C3.  On every target that respects the guarantees of C, the record
    [diplomat_result_double_void] (in either header) consists of two
    fields in this order: the payload union [{ double ok; }] at offset 0,
    whose size is the maximum of the size of the success payload
    ([double]) and of the failure payload ([void], no storage) and whose
    alignment is the maximum of both alignments, and after it, not
    overlapping it, the discriminant [bool is_ok], which takes at least
    one byte. *)
Theorem result_record_layout (a : abi) (d : struct_typedef) :
  abi_wf a ->
  d ∈ h_decls header_h ++ h_decls header_d_h ->
  exists payload flag off_flag,
    payload = FAnonUnion [Member Tdouble "ok"]
    /\ flag = FMember (Member Tbool "is_ok")
    /\ s_fields d = [payload; flag]
    /\ layout a d = [(payload, 0); (flag, off_flag)]
    /\ sizeof_field a payload
       = Z.max (sizeof_payload a success_type) (sizeof_payload a failure_type)
    /\ alignof_field a payload
       = Z.max (alignof_payload a success_type) (alignof_payload a failure_type)
    /\ 0 + sizeof_field a payload <= off_flag
    /\ 1 <= sizeof_field a flag.
Proof.
  intros Hwf Hd.
  destruct (Hwf Tdouble) as (Had & Hsd & Hdiv).
  destruct (Hwf Tbool) as (Hab & Hsb & _).
  assert (Hsz : sizeof_field a (FAnonUnion [Member Tdouble "ok"])
                = sizeof_scalar a Tdouble).
  { simpl. unfold sizeof_union, alignof_union. simpl.
    rewrite !Z.max_l by lia. by apply align_up_multiple. }
  assert (Hal : alignof_field a (FAnonUnion [Member Tdouble "ok"])
                = alignof_scalar a Tdouble).
  { simpl. unfold alignof_union. simpl. lia. }
  assert (d = diplomat_result_double_void_h) as ->.
  { simpl in Hd. apply list_elem_of_In in Hd. simpl in Hd.
    destruct Hd as [<- | [<- | []]]; reflexivity. }
  exists (FAnonUnion [Member Tdouble "ok"]), (FMember (Member Tbool "is_ok")),
    (align_up (0 + sizeof_scalar a Tdouble) (alignof_scalar a Tbool)).
  split; [reflexivity|]. split; [reflexivity|]. split; [reflexivity|].
  split.
  { unfold layout. simpl s_fields. cbn [layout_from].
    rewrite Hsz, Hal, (align_up_zero _ Had). reflexivity. }
  rewrite Hsz, Hal. cbn [sizeof_payload alignof_payload success_type failure_type].
  split; [lia|]. split; [lia|]. split.
  - apply align_up_ge. lia.
  - simpl. lia.
Qed.

Lemma result_record_layout_witness :
  exists payload flag off_flag,
    payload = FAnonUnion [Member Tdouble "ok"]
    /\ flag = FMember (Member Tbool "is_ok")
    /\ s_fields diplomat_result_double_void_d_h = [payload; flag]
    /\ layout lp64 diplomat_result_double_void_d_h = [(payload, 0); (flag, off_flag)]
    /\ sizeof_field lp64 payload
       = Z.max (sizeof_payload lp64 success_type) (sizeof_payload lp64 failure_type)
    /\ alignof_field lp64 payload
       = Z.max (alignof_payload lp64 success_type) (alignof_payload lp64 failure_type)
    /\ 0 + sizeof_field lp64 payload <= off_flag
    /\ 1 <= sizeof_field lp64 flag.
Proof.
  apply (result_record_layout lp64 diplomat_result_double_void_d_h).
  - apply lp64_wf.
  - simpl. apply list_elem_of_In. simpl. right. left. reflexivity.
Defined.

(** C9.  The two headers declare the same type: the declaration of
    [diplomat_result_double_void] in the named header equals the one in
    the second header, field by field (an anonymous union with the single
    member [double ok], then [bool is_ok]); hence both have the same
    layout on every target.  The headers differ only outside the
    declaration (the include guard). *)
Theorem declarations_identical :
  diplomat_result_double_void_h = diplomat_result_double_void_d_h
  /\ s_tag diplomat_result_double_void_h = s_tag diplomat_result_double_void_d_h
  /\ s_alias diplomat_result_double_void_h = s_alias diplomat_result_double_void_d_h
  /\ s_fields diplomat_result_double_void_h
     = [FAnonUnion [Member Tdouble "ok"]; FMember (Member Tbool "is_ok")]
  /\ s_fields diplomat_result_double_void_d_h
     = [FAnonUnion [Member Tdouble "ok"]; FMember (Member Tbool "is_ok")]
  /\ h_decls header_h = h_decls header_d_h
  /\ (forall a, layout a diplomat_result_double_void_h
                = layout a diplomat_result_double_void_d_h
                /\ sizeof_struct a diplomat_result_double_void_h
                   = sizeof_struct a diplomat_result_double_void_d_h)
  /\ h_guard header_h <> h_guard header_d_h.
Proof.
  repeat split; try reflexivity.
  intros Heq. vm_compute in Heq. discriminate Heq.
Qed.

End HeaderFacts.

(* ===================================================================== *)
(** ** Properties of the result codec *)
(* ===================================================================== *)

Section CodecFacts.
Import CHeader ResultCodec.

Lemma length_bytes_of_bits n v : length (bytes_of_bits n v) = n.
Proof. revert v. induction n as [|n IH]; intros v; simpl; [done|]. by rewrite IH. Qed.

Lemma bits_of_bytes_of_bits n v :
  0 <= v < 256 ^ Z.of_nat n -> bits_of_bytes (bytes_of_bits n v) = v.
Proof.
  revert v. induction n as [|n IH]; intros v Hv.
  - simpl in *. lia.
  - cbn [bytes_of_bits bits_of_bytes].
    rewrite Nat2Z.inj_succ, Z.pow_succ_r in Hv by lia.
    rewrite IH.
    + pose proof (Z.div_mod v 256 ltac:(lia)). lia.
    + split; [apply Z.div_pos; lia|].
      apply Z.div_lt_upper_bound; lia.
Qed.

Lemma length_write_at off bs (mem : list Z) :
  (off + length bs <= length mem)%nat ->
  length (write_at off bs mem) = length mem.
Proof.
  intros Hle. unfold write_at.
  rewrite !length_app, length_take, length_drop. lia.
Qed.

Lemma read_write_same off n bs (mem : list Z) :
  n = length bs -> (off <= length mem)%nat ->
  read_at off n (write_at off bs mem) = bs.
Proof.
  intros -> Hle. unfold read_at, write_at.
  rewrite drop_app_length' by (rewrite length_take; lia).
  by rewrite take_app_length.
Qed.

Lemma read_write_before off n off' bs (mem : list Z) :
  (off + n <= off')%nat -> (off' <= length mem)%nat ->
  read_at off n (write_at off' bs mem) = read_at off n mem.
Proof.
  intros Hlt Hle. unfold read_at, write_at.
  rewrite !take_drop_commute.
  rewrite take_app_le by (rewrite length_take; lia).
  rewrite take_take. f_equal. f_equal. lia.
Qed.

Lemma record_offsets :
  offset_of "ok" = 0%nat /\ size_of "ok" = 8%nat
  /\ offset_of "is_ok" = 8%nat /\ size_of "is_ok" = 1%nat
  /\ record_size = 16%nat.
Proof. vm_compute. done. Qed.

(** Writing a record into storage of the right size and reading it back
    gives the record: the two members do not overlap, and whatever the
    storage held before (padding included) does not matter. *)
Lemma of_memory_to_memory mem r :
  length mem = record_size -> is_double (ok r) ->
  of_memory (to_memory mem r) = r.
Proof.
  intros Hlen Hok. destruct record_offsets as (Ho & Hs & Hfo & Hfs & Hsz).
  unfold of_memory, to_memory. rewrite Ho, Hs, Hfo, Hfs. rewrite Hsz in Hlen.
  set (payload := bytes_of_bits 8 (ok r)).
  set (flag := bytes_of_bits 1 (Z.b2z (is_ok r))).
  assert (Hp : length payload = 8%nat) by apply length_bytes_of_bits.
  assert (Hf : length flag = 1%nat) by apply length_bytes_of_bits.
  assert (Hin : length (write_at 0 payload mem) = 16%nat).
  { rewrite length_write_at; lia. }
  rewrite read_write_before by lia.
  rewrite !read_write_same by lia.
  subst payload flag. rewrite bits_of_bytes_of_bits by (unfold is_double in Hok; lia).
  destruct r as [p [|]]; reflexivity.
Qed.

(** Writing a record stays inside its storage. *)
Lemma length_to_memory mem r :
  length mem = record_size -> length (to_memory mem r) = record_size.
Proof.
  intros Hlen. destruct record_offsets as (Ho & Hs & Hfo & Hfs & Hsz).
  unfold to_memory. rewrite Ho, Hs, Hfo, Hfs. rewrite Hsz in Hlen.
  assert (Hin : length (write_at 0 (bytes_of_bits 8 (ok r)) mem) = 16%nat).
  { rewrite length_write_at by (rewrite length_bytes_of_bits; lia). lia. }
  rewrite length_write_at by (rewrite length_bytes_of_bits; lia). lia.
Qed.

(** The discriminant survives the round trip through memory whatever the
    payload slot holds. *)
Lemma of_memory_is_ok mem r :
  length mem = record_size ->
  is_ok (of_memory (to_memory mem r)) = is_ok r.
Proof.
  intros Hlen. destruct record_offsets as (Ho & Hs & Hfo & Hfs & Hsz).
  unfold of_memory, to_memory. rewrite Ho, Hs, Hfo, Hfs. rewrite Hsz in Hlen.
  cbn [is_ok].
  set (payload := bytes_of_bits 8 (ok r)).
  set (flag := bytes_of_bits 1 (Z.b2z (is_ok r))).
  assert (Hp : length payload = 8%nat) by apply length_bytes_of_bits.
  assert (Hf : length flag = 1%nat) by apply length_bytes_of_bits.
  assert (Hin : length (write_at 0 payload mem) = 16%nat).
  { rewrite length_write_at; lia. }
  rewrite read_write_same by lia.
  subst flag. destruct (is_ok r); reflexivity.
Qed.

(** C1.  For every [double] value [v] (any 64 bits), the encoding of
    [Success v] has the discriminant [is_ok = true] and the payload slot
    [v], and decoding it gives back [Success v] with the same bits; this
    holds for the record as a value and for its image in memory, whatever
    the storage held before. *)
Theorem decode_encode_success (v : Z) (slot : diplomat_result_double_void)
    (mem : list Z) :
  is_double v ->
  length mem = record_size ->
  is_ok (Encode slot (Success v)) = true
  /\ ok (Encode slot (Success v)) = v
  /\ Decode (Encode slot (Success v)) = Success v
  /\ length (to_memory mem (Encode slot (Success v))) = record_size
  /\ Decode (of_memory (to_memory mem (Encode slot (Success v)))) = Success v.
Proof.
  intros Hv Hlen.
  split; [reflexivity|]. split; [reflexivity|]. split; [reflexivity|].
  split; [by apply length_to_memory|].
  rewrite of_memory_to_memory; done.
Qed.

(** 3.14 is 0x40091EB851EB851F; the storage is filled with 0xAA before. *)
Lemma decode_encode_success_witness :
  let v := 4614253070214989087 in
  let slot := {| ok := 12297829382473034410; is_ok := false |} in
  let mem := replicate 16 170 in
  is_ok (Encode slot (Success v)) = true
  /\ ok (Encode slot (Success v)) = v
  /\ Decode (Encode slot (Success v)) = Success v
  /\ length (to_memory mem (Encode slot (Success v))) = record_size
  /\ Decode (of_memory (to_memory mem (Encode slot (Success v)))) = Success v.
Proof.
  intros v slot mem. apply (decode_encode_success v slot mem).
  - unfold is_double, v. lia.
  - reflexivity.
Defined.

(** C2.  The encoding of [Failure] has the discriminant [is_ok = false]
    and decodes to [Failure] (as a value and through memory).  Nothing is
    promised about its payload slot: it holds what the storage held
    before, so every bit pattern can occur there; and the decoder's
    answer for a record with [is_ok = false] is the same whatever the
    slot holds, so the decoder does not depend on it. *)
Theorem decode_encode_failure (slot : diplomat_result_double_void)
    (mem : list Z) :
  length mem = record_size ->
  is_ok (Encode slot Failure) = false
  /\ Decode (Encode slot Failure) = Failure
  /\ length (to_memory mem (Encode slot Failure)) = record_size
  /\ is_ok (of_memory (to_memory mem (Encode slot Failure))) = false
  /\ Decode (of_memory (to_memory mem (Encode slot Failure))) = Failure
  /\ ok (Encode slot Failure) = ok slot
  /\ (forall p, exists slot', ok (Encode slot' Failure) = p
                              /\ Decode (Encode slot' Failure) = Failure)
  /\ (forall p q, Decode {| ok := p; is_ok := false |}
                  = Decode {| ok := q; is_ok := false |}).
Proof.
  intros Hlen.
  split; [reflexivity|]. split; [reflexivity|].
  split; [by apply length_to_memory|].
  split; [by rewrite of_memory_is_ok|].
  split; [unfold Decode; by rewrite of_memory_is_ok|].
  split; [reflexivity|]. split.
  - intros p. by exists {| ok := p; is_ok := true |}.
  - reflexivity.
Qed.

Lemma decode_encode_failure_witness :
  let slot := {| ok := 12297829382473034410; is_ok := true |} in
  let mem := replicate 16 170 in
  is_ok (Encode slot Failure) = false
  /\ Decode (Encode slot Failure) = Failure
  /\ length (to_memory mem (Encode slot Failure)) = record_size
  /\ is_ok (of_memory (to_memory mem (Encode slot Failure))) = false
  /\ Decode (of_memory (to_memory mem (Encode slot Failure))) = Failure
  /\ ok (Encode slot Failure) = ok slot
  /\ (forall p, exists slot', ok (Encode slot' Failure) = p
                              /\ Decode (Encode slot' Failure) = Failure)
  /\ (forall p q, Decode {| ok := p; is_ok := false |}
                  = Decode {| ok := q; is_ok := false |}).
Proof.
  intros slot mem. apply (decode_encode_failure slot mem). reflexivity.
Defined.

End CodecFacts.

(* ===================================================================== *)
(** ** Properties of the C# binding *)
(* ===================================================================== *)

Section BindingFacts.
Import CSharp.

(** C4.  The methods of [Utf16Wrap] are exactly the three operations.
    Each is bound to the native symbol [<TypeName>_<operationName>], with
    the struct's name as type name: BorrowContiguous to
    [Utf16Wrap_borrow_cont], TakeOwned to [Utf16Wrap_owned], Destroy to
    [Utf16Wrap_destroy]; and each binding uses the Cdecl calling
    convention. *)
Theorem bindings_follow_symbol_pattern :
  rs_methods Utf16Wrap = map method_of [BorrowContiguous; TakeOwned; DestroyOp]
  /\ Forall (fun op =>
               find_method Utf16Wrap (em_name (method_of op)) = Some (method_of op)
               /\ di_entry_point (em_import (method_of op))
                  = symbol_name (rs_name Utf16Wrap) (operation_name op))
            [BorrowContiguous; TakeOwned; DestroyOp]
  /\ di_entry_point (em_import (method_of BorrowContiguous)) = "Utf16Wrap_borrow_cont"
  /\ di_entry_point (em_import (method_of TakeOwned)) = "Utf16Wrap_owned"
  /\ di_entry_point (em_import (method_of DestroyOp)) = "Utf16Wrap_destroy"
  /\ Forall (fun m => di_calling_convention (em_import m) = Cdecl)
            (rs_methods Utf16Wrap).
Proof.
  split; [reflexivity|]. split.
  { repeat constructor. }
  repeat split. repeat constructor.
Qed.

(** C8.  The destruction operation of [Utf16Wrap] takes exactly one
    argument, the handle [Utf16Wrap* self], and returns nothing
    ([void]). *)
Theorem destroy_signature :
  find_method Utf16Wrap "Destroy" = Some (method_of DestroyOp)
  /\ em_params (method_of DestroyOp) = [(CsPointer (rs_name Utf16Wrap), "self")]
  /\ length (em_params (method_of DestroyOp)) = 1%nat
  /\ em_return (method_of DestroyOp) = CsVoid
  /\ signature (method_of DestroyOp) = ([CsPointer "Utf16Wrap"], CsVoid).
Proof. repeat split. Qed.

(** C10.  [BorrowCont] and [Owned] have the same type signature: one
    parameter of type [Utf16Wrap*], return type [ushort[]].  The two
    declarations differ in nothing but the method name and the entry
    point: giving [Owned] the name and entry point of [BorrowCont] yields
    [BorrowCont]. *)
Theorem borrow_and_owned_same_signature :
  signature BorrowCont = signature Owned
  /\ signature BorrowCont = ([CsPointer "Utf16Wrap"], CsUShortArray)
  /\ signature Owned = ([CsPointer "Utf16Wrap"], CsUShortArray)
  /\ renamed_as BorrowCont Owned = BorrowCont
  /\ renamed_as Owned BorrowCont = Owned
  /\ em_name BorrowCont <> em_name Owned
  /\ di_entry_point (em_import BorrowCont) <> di_entry_point (em_import Owned).
Proof.
  repeat split; intros Heq; vm_compute in Heq; discriminate Heq.
Qed.

End BindingFacts.

(* ===================================================================== *)
(** ** Properties of the native object and its handle *)
(* ===================================================================== *)

Section NativeFacts.
Import CSharp Native.

Lemma state_of_live s h :
  state_of s h = Live <-> is_Some (objects s !! h).
Proof.
  unfold state_of. destruct (objects s !! h); split; intros H;
    try done; try (by eexists); by destruct H.
Qed.

Lemma call_dead s op h :
  objects s !! h = None -> call s op h = PreconditionViolation.
Proof. intros H. unfold call. by rewrite H. Qed.

Lemma borrow_live s h units :
  objects s !! h = Some units ->
  call s BorrowContiguous h
  = Returns (RView {| view_src := h; view_len := length units |}) s.
Proof. intros H. unfold call. by rewrite H. Qed.

Lemma view_content_whole s h units :
  objects s !! h = Some units ->
  view_content s {| view_src := h; view_len := length units |} = Some units.
Proof.
  intros H. unfold view_content. simpl. rewrite H. simpl.
  by rewrite take_ge.
Qed.

(** C5.  On a live handle, BorrowContiguous returns, and a second call
    right after the first returns as well; the store is the same after
    each call, and the two views have the same length and show the same
    content, the units of the object. *)
Theorem borrow_twice_same_view (s : store) (h : positive) :
  state_of s h = Live ->
  exists units v1 s1 v2 s2,
    objects s !! h = Some units
    /\ call s BorrowContiguous h = Returns (RView v1) s1
    /\ call s1 BorrowContiguous h = Returns (RView v2) s2
    /\ s1 = s /\ s2 = s
    /\ view_len v1 = view_len v2
    /\ view_len v1 = length units
    /\ view_content s2 v1 = Some units
    /\ view_content s2 v2 = Some units.
Proof.
  intros Hlive. apply state_of_live in Hlive as [units Hu].
  exists units, {| view_src := h; view_len := length units |}, s,
    {| view_src := h; view_len := length units |}, s.
  split; [done|].
  split; [by apply borrow_live|]. split; [by apply borrow_live|].
  split; [done|]. split; [done|]. split; [done|]. split; [done|].
  split; by apply view_content_whole.
Qed.

Lemma borrow_twice_same_view_witness :
  exists units v1 s1 v2 s2,
    objects hi_store !! hi_handle = Some units
    /\ call hi_store BorrowContiguous hi_handle = Returns (RView v1) s1
    /\ call s1 BorrowContiguous hi_handle = Returns (RView v2) s2
    /\ s1 = hi_store /\ s2 = hi_store
    /\ view_len v1 = view_len v2
    /\ view_len v1 = length units
    /\ view_content s2 v1 = Some units
    /\ view_content s2 v2 = Some units.
Proof.
  apply (borrow_twice_same_view hi_store hi_handle). vm_compute. reflexivity.
Defined.

Lemma run_destroyed ops st' :
  run Destroyed ops = Next st' -> ops = [] /\ st' = Destroyed.
Proof.
  destruct ops as [|op ops]; simpl; intros H.
  - by inversion H.
  - discriminate H.
Qed.

Lemma destroys_cons_other op ops :
  op <> DestroyOp -> destroys (op :: ops) = destroys ops.
Proof. intros Hne. unfold destroys. by rewrite filter_cons_False. Qed.

(** A legal run from Live either never destroys and stays Live, or
    destroys once, as its last operation, and ends Destroyed. *)
Lemma run_live ops st' :
  run Live ops = Next st' ->
  (st' = Live /\ destroys ops = 0%nat)
  \/ (st' = Destroyed /\ destroys ops = 1%nat
      /\ exists ops0, ops = ops0 ++ [DestroyOp] /\ destroys ops0 = 0%nat).
Proof.
  induction ops as [|op ops IH]; simpl; intros H.
  - left. by inversion H.
  - destruct (decide (op = DestroyOp)) as [-> | Hne].
    + apply run_destroyed in H as [-> ->].
      right. split; [done|]. split; [done|]. by exists [].
    + assert (Hrun : run Live ops = Next st') by (by destruct op).
      rewrite (destroys_cons_other _ _ Hne).
      destruct (IH Hrun) as [[-> Hd] | (-> & Hd & ops0 & -> & Hd0)].
      * by left.
      * right. split; [done|]. split; [done|].
        exists (op :: ops0). split; [done|].
        by rewrite (destroys_cons_other _ _ Hne).
Qed.

Lemma run_app st ops ops' st' :
  run st ops = Next st' -> run st (ops ++ ops') = run st' ops'.
Proof.
  revert st. induction ops as [|op ops IH]; simpl; intros st H.
  - by inversion H.
  - destruct (step st op) as [st1| |]; try discriminate H. by apply IH.
Qed.

Lemma call_refines_step s op h :
  match call s op h with
  | Returns _ s' => step (state_of s h) op = Next (state_of s' h)
  | RuntimeFailure => False
  | PreconditionViolation => step (state_of s h) op = StepPreconditionViolation
  end.
Proof.
  unfold call, state_of. destruct (objects s !! h) as [units|] eqn:Hh.
  - destruct op; simpl; rewrite ?Hh; try done.
    by rewrite lookup_delete_eq.
  - done.
Qed.

Lemma create_live s units :
  state_of (create s units).2 (create s units).1 = Live
  /\ objects s !! (create s units).1 = None.
Proof.
  unfold create, state_of. simpl. rewrite lookup_insert_eq. split; [done|].
  apply not_elem_of_dom. apply is_fresh.
Qed.

(** C6.  A handle has the two states Live and Destroyed and starts Live
    (also in the store, right after construction).  The only step that
    changes the state is Live to Destroyed by Destroy; borrowing and
    taking keep a live handle Live.  In state Destroyed every operation is
    a precondition violation, and no step ever is a recoverable runtime
    failure.  So a legal sequence of operations has at most one Destroy,
    exactly one if it ends in Destroyed, and nothing can legally follow
    it.  The operations on the store follow this machine. *)
Theorem handle_state_machine :
  initial_state = Live
  /\ (forall s units,
        state_of (create s units).2 (create s units).1 = initial_state)
  /\ step Live DestroyOp = Next Destroyed
  /\ step Live BorrowContiguous = Next Live
  /\ step Live TakeOwned = Next Live
  /\ (forall st op st',
        step st op = Next st' -> st' <> st ->
        st = Live /\ op = DestroyOp /\ st' = Destroyed)
  /\ (forall op, step Destroyed op = StepPreconditionViolation)
  /\ (forall st op, step st op <> StepRuntimeFailure)
  /\ (forall ops st',
        run initial_state ops = Next st' ->
        (destroys ops <= 1)%nat
        /\ (st' = Destroyed <-> destroys ops = 1%nat)
        /\ (st' = Destroyed -> exists ops0, ops = ops0 ++ [DestroyOp]))
  /\ (forall ops op,
        run initial_state ops = Next Destroyed ->
        run initial_state (ops ++ [op]) = StepPreconditionViolation)
  /\ (forall s op h,
        match call s op h with
        | Returns _ s' => step (state_of s h) op = Next (state_of s' h)
        | RuntimeFailure => False
        | PreconditionViolation =>
            step (state_of s h) op = StepPreconditionViolation
        end).
Proof.
  split; [done|].
  split; [intros s units; apply create_live|].
  split; [done|]. split; [done|]. split; [done|].
  split.
  { intros [] [] st' H Hne; simpl in H; inversion H; subst; done. }
  split; [done|].
  split; [by intros [] []|].
  split.
  { intros ops st' H.
    destruct (run_live _ _ H) as [[-> Hd] | (-> & Hd & ops0 & -> & _)].
    - rewrite Hd. split; [lia|]. split; [split; intros; [done|lia]|done].
    - rewrite Hd. split; [lia|]. split; [done|]. intros _. by exists ops0. }
  split.
  { intros ops op H. by rewrite (run_app _ _ _ _ H). }
  apply call_refines_step.
Qed.

(** C7.  Destroy on a live handle returns and leaves the handle
    Destroyed.  After it, every view borrowed from the handle (valid
    before) is invalid and every further call on the handle is a
    precondition violation, while the owned sequences are untouched: each
    keeps its content, can still be released, and that release, which
    Destroy has not done, can be done once only, a second one being a
    precondition violation.  (A view returned by BorrowContiguous on the
    handle is a view of the handle's object, and the sequence returned by
    TakeOwned holds a copy of the object's units.) *)
Theorem destroy_keeps_owned (s : store) (h : positive) :
  state_of s h = Live ->
  exists s',
    call s DestroyOp h = Returns RNothing s'
    /\ state_of s' h = Destroyed
    /\ (forall v, view_src v = h -> view_valid s v /\ ~ view_valid s' v)
    /\ (forall op, call s' op h = PreconditionViolation)
    /\ (forall b, owned s' !! b = owned s !! b)
    /\ (forall b units,
          owned s !! b = Some units ->
          exists s'',
            release s' b = Returns RNothing s''
            /\ owned s'' !! b = None
            /\ release s'' b = PreconditionViolation)
    /\ (forall s0 v s1,
          call s0 BorrowContiguous h = Returns (RView v) s1 -> view_src v = h)
    /\ (forall s0 b,
          call s0 TakeOwned h = Returns (ROwned b) s ->
          owned s0 !! b = None /\ owned s !! b = objects s0 !! h).
Proof.
  intros Hlive. apply state_of_live in Hlive as [units Hu].
  exists {| objects := delete h (objects s); owned := owned s |}.
  split; [unfold call; by rewrite Hu|].
  split; [unfold state_of; simpl; by rewrite lookup_delete_eq|].
  split.
  { intros [src len] Hsrc. simpl in Hsrc. subst src.
    unfold view_valid, view_content. simpl.
    rewrite Hu, lookup_delete_eq. simpl. split; [by eexists|].
    by intros [x Hx]. }
  split.
  { intros op. apply call_dead. simpl. apply lookup_delete_eq. }
  split; [done|].
  split.
  { intros b c Hb.
    exists {| objects := delete h (objects s); owned := delete b (owned s) |}.
    unfold release. simpl. rewrite Hb, lookup_delete_eq. done. }
  split.
  { intros s0 v s1 H. unfold call in H.
    destruct (objects s0 !! h); [|discriminate H]. by inversion H. }
  intros s0 b H. unfold call in H.
  destruct (objects s0 !! h) as [c|] eqn:Hc; [|discriminate H].
  inversion H; subst; clear H. simpl. rewrite lookup_insert_eq.
  split; [|done]. apply not_elem_of_dom. apply is_fresh.
Qed.

(** The theorem at the store in which an owned sequence taken from the
    handle is still held: the handle is live, the sequence holds the units
    of hi, and it was obtained by TakeOwned on the handle. *)
Lemma destroy_keeps_owned_witness :
  (state_of hi_taken hi_handle = Live
   /\ call hi_store TakeOwned hi_handle = Returns (ROwned hi_owned) hi_taken
   /\ owned hi_taken !! hi_owned = Some hi_units)
  /\ exists s',
    call hi_taken DestroyOp hi_handle = Returns RNothing s'
    /\ state_of s' hi_handle = Destroyed
    /\ (forall v, view_src v = hi_handle ->
                  view_valid hi_taken v /\ ~ view_valid s' v)
    /\ (forall op, call s' op hi_handle = PreconditionViolation)
    /\ (forall b, owned s' !! b = owned hi_taken !! b)
    /\ (forall b units,
          owned hi_taken !! b = Some units ->
          exists s'',
            release s' b = Returns RNothing s''
            /\ owned s'' !! b = None
            /\ release s'' b = PreconditionViolation)
    /\ (forall s0 v s1,
          call s0 BorrowContiguous hi_handle = Returns (RView v) s1 ->
          view_src v = hi_handle)
    /\ (forall s0 b,
          call s0 TakeOwned hi_handle = Returns (ROwned b) hi_taken ->
          owned s0 !! b = None /\ owned hi_taken !! b = objects s0 !! hi_handle).
Proof.
  split.
  - split; [vm_compute; reflexivity|].
    split; vm_compute; reflexivity.
  - apply (destroy_keeps_owned hi_taken hi_handle). vm_compute. reflexivity.
Defined.

(** The scenario of the specification, run on the store: borrowing from
    the handle on hi shows 0x68, 0x69; taking gives a sequence with the
    same units; after Destroy a further borrow is a precondition
    violation, the view is gone, and the owned sequence still holds its
    units and can be released, once. *)
Lemma hi_scenario :
  exists v b s1 s2 s3,
    call hi_store BorrowContiguous hi_handle = Returns (RView v) hi_store
    /\ view_content hi_store v = Some [104; 105]
    /\ call hi_store TakeOwned hi_handle = Returns (ROwned b) s1
    /\ owned s1 !! b = Some [104; 105]
    /\ call s1 DestroyOp hi_handle = Returns RNothing s2
    /\ call s2 BorrowContiguous hi_handle = PreconditionViolation
    /\ view_content s2 v = None
    /\ owned s2 !! b = Some [104; 105]
    /\ release s2 b = Returns RNothing s3
    /\ release s3 b = PreconditionViolation.
Proof.
  eexists _, _, _, _, _.
  split; [vm_compute; reflexivity|].
  split; [vm_compute; reflexivity|].
  split; [vm_compute; reflexivity|].
  split; [vm_compute; reflexivity|].
  split; [vm_compute; reflexivity|].
  split; [vm_compute; reflexivity|].
  split; [vm_compute; reflexivity|].
  split; [vm_compute; reflexivity|].
  split; vm_compute; reflexivity.
Qed.

End NativeFacts.

(* ===================================================================== *)
(** ** Properties of the include guards *)
(* ===================================================================== *)

Section GuardFacts.
Import CHeader Preprocessor.

Variable inc : include -> gset string -> gset string.

Lemma include_all_mono fs d :
  only_defines inc -> d ⊆ include_all inc fs d.
Proof.
  intros Hinc. revert d. induction fs as [|f fs IH]; intros d; simpl; [done|].
  etrans; [apply (Hinc f)|apply IH].
Qed.

Lemma include_all_leaves_alone g fs d :
  leaves_alone inc g -> g ∈ include_all inc fs d -> g ∈ d.
Proof.
  intros Hg. revert d. induction fs as [|f fs IH]; intros d; simpl; [done|].
  intros H. apply (Hg f). by apply IH.
Qed.

Lemma include_header_skip h tu :
  h_guard h ∈ tu_defined tu -> include_header inc h tu = tu.
Proof. intros H. unfold include_header. by rewrite decide_True. Qed.

Lemma include_header_mono h tu :
  only_defines inc -> tu_defined tu ⊆ tu_defined (include_header inc h tu).
Proof.
  intros Hinc. unfold include_header. case_decide; [done|]. simpl.
  etrans; [|by apply include_all_mono]. set_solver.
Qed.

Lemma include_header_defines h tu :
  only_defines inc -> h_guard h ∈ tu_defined (include_header inc h tu).
Proof.
  intros Hinc. unfold include_header. case_decide; [done|]. simpl.
  apply (include_all_mono _ _ Hinc). set_solver.
Qed.

Lemma include_headers_mono hs tu :
  only_defines inc -> tu_defined tu ⊆ tu_defined (include_headers inc hs tu).
Proof.
  intros Hinc. revert tu. induction hs as [|h hs IH]; intros tu; simpl; [done|].
  etrans; [by apply (include_header_mono h)|apply IH].
Qed.

Lemma pd_decl_place c h ds : map pd_decl (map (place c h) ds) = ds.
Proof.
  induction ds as [|d ds IH]; simpl; [done|].
  rewrite IH. by destruct c.
Qed.

End GuardFacts.

Section GuardTheorems.
Import CHeader Preprocessor.

(** X1.  The include guard works: once a header has been included,
    including it again changes nothing in the unit, whatever other headers
    were included in between (as long as no included file undefines a
    macro).  Its guard macro stays defined. *)
Theorem include_guard_once (inc : include -> gset string -> gset string)
    (h : header) (hs : list header) (tu : translation_unit) :
  only_defines inc ->
  h_guard h ∈ tu_defined (include_headers inc hs (include_header inc h tu))
  /\ include_header inc h (include_headers inc hs (include_header inc h tu))
     = include_headers inc hs (include_header inc h tu).
Proof.
  intros Hinc.
  assert (Hin : h_guard h
                ∈ tu_defined (include_headers inc hs (include_header inc h tu))).
  { apply (include_headers_mono inc _ _ Hinc).
    by apply include_header_defines. }
  split; [done|]. by apply include_header_skip.
Qed.

Lemma include_guard_once_witness :
  h_guard header_h
    ∈ tu_defined (include_headers inc_nothing [header_d_h]
                    (include_header inc_nothing header_h empty_unit))
  /\ include_header inc_nothing header_h
       (include_headers inc_nothing [header_d_h]
          (include_header inc_nothing header_h empty_unit))
     = include_headers inc_nothing [header_d_h]
         (include_header inc_nothing header_h empty_unit).
Proof.
  apply (include_guard_once inc_nothing header_h [header_d_h] empty_unit).
  intros f d. reflexivity.
Defined.

(** X2.  The two headers have different guard macros, so neither guard
    protects against the other header: a unit that includes both (in
    either order, neither guard defined before, the included files not
    defining them) gets the declaration of
    [struct diplomat_result_double_void] twice, under the same tag, where
    including one header twice gives it once.  Under [__cplusplus] both
    copies sit in [namespace capi] with C linkage. *)
Theorem both_headers_declare_twice
    (inc : include -> gset string -> gset string) (tu : translation_unit) :
  only_defines inc ->
  leaves_alone inc (h_guard header_h) ->
  leaves_alone inc (h_guard header_d_h) ->
  h_guard header_h ∉ tu_defined tu ->
  h_guard header_d_h ∉ tu_defined tu ->
  map pd_decl (tu_decls (include_headers inc [header_h; header_d_h] tu))
  = map pd_decl (tu_decls tu)
    ++ [diplomat_result_double_void_h; diplomat_result_double_void_d_h]
  /\ map pd_decl (tu_decls (include_headers inc [header_d_h; header_h] tu))
     = map pd_decl (tu_decls tu)
       ++ [diplomat_result_double_void_d_h; diplomat_result_double_void_h]
  /\ map pd_decl (tu_decls (include_headers inc [header_h; header_h] tu))
     = map pd_decl (tu_decls tu) ++ [diplomat_result_double_void_h]
  /\ s_tag diplomat_result_double_void_h = s_tag diplomat_result_double_void_d_h
  /\ ("__cplusplus" ∈ tu_defined tu ->
      tu_decls (include_headers inc [header_h; header_d_h] tu)
      = tu_decls tu
        ++ [ {| pd_namespace := Some "capi"; pd_linkage := Some "C";
                pd_decl := diplomat_result_double_void_h |};
             {| pd_namespace := Some "capi"; pd_linkage := Some "C";
                pd_decl := diplomat_result_double_void_d_h |} ]).
Proof.
  intros Hinc Hh Hd Hnh Hnd.
  assert (Hne : h_guard header_h <> h_guard header_d_h).
  { intros Heq. vm_compute in Heq. discriminate Heq. }
  (* the unit after the first header, in either order *)
  assert (Hfirst : forall h g,
            h_guard h ∉ tu_defined tu -> g ∉ tu_defined tu ->
            g <> h_guard h -> leaves_alone inc g ->
            (g ∉ tu_defined (include_header inc h tu))
            /\ tu_decls (include_header inc h tu)
               = tu_decls tu
                 ++ map (place (bool_decide
                                  ("__cplusplus"
                                     ∈ tu_defined (include_header inc h tu))) h)
                        (h_decls h)).
  { intros h g Hngh Hng Hneq Hg. unfold include_header.
    rewrite decide_False by done. simpl. split; [|done].
    intros Hin. apply (include_all_leaves_alone inc g _ _ Hg) in Hin.
    apply elem_of_union in Hin as [Hin | Hin]; [|done].
    by apply elem_of_singleton in Hin. }
  assert (Hsecond : forall h u,
            h_guard h ∉ tu_defined u ->
            tu_decls (include_header inc h u)
            = tu_decls u
              ++ map (place (bool_decide
                               ("__cplusplus"
                                  ∈ tu_defined (include_header inc h u))) h)
                     (h_decls h)).
  { intros h u Hn. unfold include_header. by rewrite decide_False by done. }
  destruct (Hfirst header_h (h_guard header_d_h) Hnh Hnd (not_eq_sym Hne) Hd)
    as [Hn1 Hd1].
  destruct (Hfirst header_d_h (h_guard header_h) Hnd Hnh Hne Hh) as [Hn2 Hd2].
  split.
  { simpl. rewrite (Hsecond _ _ Hn1), Hd1.
    by rewrite !map_app, !pd_decl_place, <- app_assoc. }
  split.
  { simpl. rewrite (Hsecond _ _ Hn2), Hd2.
    by rewrite !map_app, !pd_decl_place, <- app_assoc. }
  split.
  { simpl. rewrite include_header_skip by (by apply include_header_defines).
    by rewrite Hd1, map_app, pd_decl_place. }
  split; [done|].
  intros Hcpp. simpl. rewrite (Hsecond _ _ Hn1), Hd1, <- app_assoc. f_equal.
  assert (Hc1 : "__cplusplus" ∈ tu_defined (include_header inc header_h tu)).
  { by apply (include_header_mono inc _ _ Hinc). }
  assert (Hc2 : "__cplusplus"
                ∈ tu_defined (include_header inc header_d_h
                                (include_header inc header_h tu))).
  { by apply (include_header_mono inc _ _ Hinc). }
  rewrite !bool_decide_eq_true_2 by done. reflexivity.
Qed.

Lemma both_headers_declare_twice_witness :
  map pd_decl
      (tu_decls (include_headers inc_nothing [header_h; header_d_h] empty_unit))
  = map pd_decl (tu_decls empty_unit)
    ++ [diplomat_result_double_void_h; diplomat_result_double_void_d_h]
  /\ map pd_decl
         (tu_decls (include_headers inc_nothing [header_d_h; header_h] empty_unit))
     = map pd_decl (tu_decls empty_unit)
       ++ [diplomat_result_double_void_d_h; diplomat_result_double_void_h]
  /\ map pd_decl
         (tu_decls (include_headers inc_nothing [header_h; header_h] empty_unit))
     = map pd_decl (tu_decls empty_unit) ++ [diplomat_result_double_void_h]
  /\ s_tag diplomat_result_double_void_h = s_tag diplomat_result_double_void_d_h
  /\ ("__cplusplus" ∈ tu_defined empty_unit ->
      tu_decls (include_headers inc_nothing [header_h; header_d_h] empty_unit)
      = tu_decls empty_unit
        ++ [ {| pd_namespace := Some "capi"; pd_linkage := Some "C";
                pd_decl := diplomat_result_double_void_h |};
             {| pd_namespace := Some "capi"; pd_linkage := Some "C";
                pd_decl := diplomat_result_double_void_d_h |} ]).
Proof.
  apply (both_headers_declare_twice inc_nothing empty_unit).
  - intros f d. reflexivity.
  - intros f d H. exact H.
  - intros f d H. exact H.
  - simpl. apply not_elem_of_empty.
  - simpl. apply not_elem_of_empty.
Defined.

End GuardTheorems.

(* ===================================================================== *)
(** ** Size and alignment of the record *)
(* ===================================================================== *)

Section RecordSizeFacts.
Import CHeader LayoutCheck.

Lemma align_up_divide x al : (al | align_up x al).
Proof. unfold align_up. by eexists. Qed.

Lemma align_up_lt x al : 1 <= al -> align_up x al < x + al.
Proof.
  intros Hal. unfold align_up.
  pose proof (Z.mul_div_le (x + al - 1) al ltac:(lia)). lia.
Qed.

Lemma alignof_union_pos a ms : 1 <= alignof_union a ms.
Proof. unfold alignof_union. induction ms as [|m ms IH]; simpl; lia. Qed.

Lemma alignof_field_pos a f : abi_wf a -> 1 <= alignof_field a f.
Proof.
  intros Hwf. destruct f as [ms|m]; simpl.
  - apply alignof_union_pos.
  - apply Hwf.
Qed.

Lemma sizeof_field_nonneg a f : abi_wf a -> 0 <= sizeof_field a f.
Proof.
  intros Hwf. destruct f as [ms|m]; simpl.
  - unfold sizeof_union.
    etrans; [|apply align_up_ge, alignof_union_pos].
    induction ms as [|m ms IH]; simpl; lia.
  - destruct (Hwf (m_type m)) as (_ & Hs & _). lia.
Qed.

Lemma layout_from_packed a fs off :
  abi_wf a -> packed a off (layout_from a off fs).
Proof.
  intros Hwf. revert off. induction fs as [|f fs IH]; intros off; simpl; [done|].
  split; [apply align_up_ge, alignof_field_pos, Hwf|].
  split; [apply align_up_divide|]. apply IH.
Qed.

(** X3.  On every target that respects the guarantees of C, in the record
    as declared (either header): the payload member [ok] is at offset 0,
    so a pointer to the record points to the [double]; [is_ok] is at the
    first multiple of the alignment of [bool] at or after the end of the
    [double]; the record has no other member.  The record is aligned like
    the stricter of its two members, its size is the least multiple of
    that alignment that holds both members, and so it is strictly larger
    than the [double] it carries. *)
Theorem result_record_size (a : abi) (d : struct_typedef) :
  abi_wf a ->
  d ∈ h_decls header_h ++ h_decls header_d_h ->
  exists off_flag,
    member_offset a d "ok" = Some (0, Tdouble)
    /\ member_offset a d "is_ok" = Some (off_flag, Tbool)
    /\ (forall name, name <> "ok" -> name <> "is_ok" ->
                     member_offset a d name = None)
    /\ packed a 0 (layout a d)
    /\ sizeof_scalar a Tdouble <= off_flag < sizeof_scalar a Tdouble + alignof_scalar a Tbool
    /\ (alignof_scalar a Tbool | off_flag)
    /\ alignof_struct a d = Z.max (alignof_scalar a Tdouble) (alignof_scalar a Tbool)
    /\ (alignof_struct a d | sizeof_struct a d)
    /\ off_flag + sizeof_scalar a Tbool <= sizeof_struct a d
       < off_flag + sizeof_scalar a Tbool + alignof_struct a d
    /\ sizeof_scalar a Tdouble < sizeof_struct a d.
Proof.
  intros Hwf Hd.
  destruct (Hwf Tdouble) as (Had & Hsd & Hdiv).
  destruct (Hwf Tbool) as (Hab & Hsb & _).
  assert (d = diplomat_result_double_void_h) as ->.
  { simpl in Hd. apply list_elem_of_In in Hd. simpl in Hd.
    destruct Hd as [<- | [<- | []]]; reflexivity. }
  assert (Hsz : sizeof_union a [Member Tdouble "ok"] = sizeof_scalar a Tdouble).
  { unfold sizeof_union, alignof_union. simpl.
    rewrite !Z.max_l by lia. by apply align_up_multiple. }
  assert (Hal : alignof_union a [Member Tdouble "ok"] = alignof_scalar a Tdouble).
  { unfold alignof_union. simpl. lia. }
  set (off := align_up (sizeof_scalar a Tdouble) (alignof_scalar a Tbool)).
  assert (Hlay : layout a diplomat_result_double_void_h
                 = [ (FAnonUnion [Member Tdouble "ok"], 0);
                     (FMember (Member Tbool "is_ok"), off) ]).
  { unfold layout. simpl s_fields. cbn [layout_from sizeof_field alignof_field].
    rewrite Hsz, Hal, (align_up_zero _ Had). reflexivity. }
  assert (Hoff1 : sizeof_scalar a Tdouble <= off) by (apply align_up_ge; lia).
  assert (Hoff2 : off < sizeof_scalar a Tdouble + alignof_scalar a Tbool)
    by (apply align_up_lt; lia).
  assert (Halign : alignof_struct a diplomat_result_double_void_h
                   = Z.max (alignof_scalar a Tdouble) (alignof_scalar a Tbool)).
  { unfold alignof_struct, alignof_union. simpl. lia. }
  assert (Hend : end_of_fields a diplomat_result_double_void_h
                 = off + sizeof_scalar a Tbool).
  { unfold end_of_fields. rewrite Hlay. simpl. rewrite Hsz. lia. }
  exists off.
  split; [unfold member_offset; by rewrite Hlay|].
  split; [unfold member_offset; by rewrite Hlay|].
  split.
  { intros name Hn1 Hn2. unfold member_offset. rewrite Hlay. simpl.
    rewrite !bool_decide_eq_false_2 by done. reflexivity. }
  split; [by apply layout_from_packed|].
  split; [lia|].
  split; [apply align_up_divide|].
  split; [done|].
  split; [apply align_up_divide|].
  unfold sizeof_struct. rewrite Hend.
  pose proof (align_up_ge (off + sizeof_scalar a Tbool)
                (alignof_struct a diplomat_result_double_void_h) ltac:(lia)).
  pose proof (align_up_lt (off + sizeof_scalar a Tbool)
                (alignof_struct a diplomat_result_double_void_h) ltac:(lia)).
  lia.
Qed.

Lemma result_record_size_witness :
  exists off_flag,
    member_offset lp64 diplomat_result_double_void_h "ok" = Some (0, Tdouble)
    /\ member_offset lp64 diplomat_result_double_void_h "is_ok"
       = Some (off_flag, Tbool)
    /\ (forall name, name <> "ok" -> name <> "is_ok" ->
                     member_offset lp64 diplomat_result_double_void_h name = None)
    /\ packed lp64 0 (layout lp64 diplomat_result_double_void_h)
    /\ sizeof_scalar lp64 Tdouble <= off_flag
       < sizeof_scalar lp64 Tdouble + alignof_scalar lp64 Tbool
    /\ (alignof_scalar lp64 Tbool | off_flag)
    /\ alignof_struct lp64 diplomat_result_double_void_h
       = Z.max (alignof_scalar lp64 Tdouble) (alignof_scalar lp64 Tbool)
    /\ (alignof_struct lp64 diplomat_result_double_void_h
        | sizeof_struct lp64 diplomat_result_double_void_h)
    /\ off_flag + sizeof_scalar lp64 Tbool
       <= sizeof_struct lp64 diplomat_result_double_void_h
       < off_flag + sizeof_scalar lp64 Tbool
         + alignof_struct lp64 diplomat_result_double_void_h
    /\ sizeof_scalar lp64 Tdouble < sizeof_struct lp64 diplomat_result_double_void_h.
Proof.
  apply (result_record_size lp64 diplomat_result_double_void_h).
  - apply lp64_wf.
  - simpl. apply list_elem_of_In. simpl. left. reflexivity.
Defined.

End RecordSizeFacts.

(* ===================================================================== *)
(** ** Resolution of the C# bindings *)
(* ===================================================================== *)

Section ResolutionFacts.
Import CSharp.

(** X4.  In [Utf16Wrap] no two methods share a name and no two share an
    entry point, so looking a method up by its name finds that very
    declaration (and a name that is not declared finds nothing), and
    different methods are bound to different native symbols.  All of them
    are looked up in the one library [diplomat_feature_tests] under the
    exact spelling of the entry point, and each takes one parameter, the
    handle [self], a pointer to the struct itself. *)
Theorem bindings_resolve_apart :
  NoDup (map em_name (rs_methods Utf16Wrap))
  /\ NoDup (map (fun m => di_entry_point (em_import m)) (rs_methods Utf16Wrap))
  /\ Forall (fun m => find_method Utf16Wrap (em_name m) = Some m)
            (rs_methods Utf16Wrap)
  /\ (forall name,
        is_Some (find_method Utf16Wrap name)
        <-> name ∈ map em_name (rs_methods Utf16Wrap))
  /\ (forall name m, find_method Utf16Wrap name = Some m ->
                     em_name m = name /\ m ∈ rs_methods Utf16Wrap)
  /\ Forall (fun m => di_lib (em_import m) = "diplomat_feature_tests"
                      /\ di_exact_spelling (em_import m) = true)
            (rs_methods Utf16Wrap)
  /\ Forall (fun m => em_params m = [(CsPointer (rs_name Utf16Wrap), "self")])
            (rs_methods Utf16Wrap).
Proof.
  assert (Hfind : forall name m, find_method Utf16Wrap name = Some m ->
                                 em_name m = name /\ m ∈ rs_methods Utf16Wrap).
  { intros name m H. unfold find_method in H.
    apply find_some in H as [Hin Hname].
    apply bool_decide_eq_true_1 in Hname.
    split; [done|]. by apply list_elem_of_In. }
  split; [compute_done|]. split; [compute_done|].
  split; [repeat constructor|].
  split.
  { intros name. split.
    - intros [m Hm]. destruct (Hfind _ _ Hm) as [<- Hin].
      by apply list_elem_of_fmap_2.
    - intros Hin. apply list_elem_of_fmap in Hin as (m & -> & Hm).
      simpl in Hm. apply list_elem_of_In in Hm. simpl in Hm.
      destruct Hm as [<- | [<- | [<- | []]]]; by eexists. }
  split; [exact Hfind|].
  split; repeat constructor.
Qed.

End ResolutionFacts.
